(** * simple-api-lib: the application container, the module wrapper, the
    base controller and the File model's serialisation hook

    A shallow embedding of the TypeScript sources

    - [Application] (use, set, continue, beforeRun, run, exit),
    - [Module] (the constructor wrapper, README listing),
    - [BaseController.build],
    - [Utils.toPrettyObject] and the [FileSchema] options that install it,

    over a small model of the JavaScript store: a heap of objects addressed
    by reference, completions (normal, throw, process exit) and a log of the
    constructor runs and entry-point invocations the container performs. *)

From Stdlib Require Import ZArith SpecFloat.
From stdpp Require Import base option list gmap strings.

Open Scope string_scope.
Open Scope list_scope.

(** ** Values *)

(** A JavaScript number is an IEEE 754 double; [spec_float] has exactly the
    cases the sources distinguish through truthiness: zeros, NaN, the rest. *)
Definition number : Type := spec_float.

Definition num0 : number := S754_zero false.
Definition num_neg0 : number := S754_zero true.

(** Small integers as numbers (m * 2^0), for examples. *)
Definition num_of_Z (z : Z) : number :=
  match z with
  | Z0 => num0
  | Zpos p => S754_finite false p 0
  | Zneg p => S754_finite true p 0
  end.

Global Instance number_eq_dec : EqDecision number.
Proof. solve_decision. Defined.

(** Object references. *)
Definition loc : Type := positive.

Inductive value : Type :=
  | VUndefined
  | VNull
  | VBool (b : bool)
  | VNumber (n : number)
  | VString (s : string)
  | VRef (l : loc).

Global Instance value_eq_dec : EqDecision value.
Proof. solve_decision. Defined.

(** ToBoolean: what [if (v)], [v ? a : b] and [v || b] test. *)
Definition truthy (v : value) : bool :=
  match v with
  | VUndefined | VNull => false
  | VBool b => b
  | VNumber (S754_zero _) | VNumber S754_nan => false
  | VNumber _ => true
  | VString s => negb (String.eqb s "")
  | VRef _ => true
  end.

(** [a || b] *)
Definition js_or (a b : value) : value := if truthy a then a else b.

(** An optional field or parameter ([x?: T]) that is absent reads as
    [undefined]. *)
Definition optional {A} (inj : A → value) (o : option A) : value :=
  match o with Some a => inj a | None => VUndefined end.

(** The own properties of an object. *)
Abbreviation props := (gmap string value).

(** Reading a property: an absent one reads as [undefined]. *)
Definition get (p : props) (k : string) : value := default VUndefined (p !! k).

(** ** Completions *)

(** How a call ends: it returns, it throws, or the process is gone
    ([process.exit]). *)
Inductive completion (A : Type) : Type :=
  | Normal (a : A)
  | Throw (e : value)
  | Exit (status : number).
Arguments Normal {A} a.
Arguments Throw {A} e.
Arguments Exit {A} status.

(** Code over a store [S]: the store survives a throw. *)
Definition M (S A : Type) : Type := S → completion A * S.

Definition ret {S A} (a : A) : M S A := λ s, (Normal a, s).

Definition bind {S A B} (m : M S A) (k : A → M S B) : M S B :=
  λ s, match m s with
       | (Normal a, s') => k a s'
       | (Throw e, s') => (Throw e, s')
       | (Exit n, s') => (Exit n, s')
       end.

Definition throw {S A} (e : value) : M S A := λ s, (Throw e, s).

Definition modify {S} (f : S → S) : M S unit := λ s, (Normal tt, f s).

Definition gets {S A} (f : S → A) : M S A := λ s, (Normal (f s), s).

Declare Scope js_scope.
Delimit Scope js_scope with js.
Notation "'let*' x := m 'in' k" := (bind m (λ x, k))
  (at level 10, x pattern, m at level 100, k at level 200) : js_scope.
Notation "m ;;; k" := (bind m (λ _, k))
  (at level 100, k at level 200, right associativity) : js_scope.

(** [for (const x of xs) body(x)] over an array no iteration changes. *)
Fixpoint for_of {S A} (xs : list A) (body : A → M S unit) : M S unit :=
  match xs with
  | [] => ret tt
  | x :: xs' => bind (body x) (λ _, for_of xs' body)
  end.

Definition TypeError (msg : string) : value := VString ("TypeError: " ++ msg)%string.

(** ** The store *)

Section Store.
(** What client code (module constructors and entry points) can observe
    and change besides its own fields: the console, sockets, the
    process-wide [Application.sharedContext] slot, ... *)
Context {Ext : Type}.

(** A class that implements [IModule]: the body of its constructor, run on
    the arguments, gives the new object's fields; the body of its lifecycle
    entry point [default()] reads and updates them.  For an
    [async default()] the body is the part that runs before the call
    returns its promise.  A body that throws still leaves its effects
    behind.  Client code holds no reference to the container: the fields of
    [Application] are private and no body calls back into it. *)
Record ModuleClass : Type := {
  construct : list value → Ext → completion props * Ext;
  default_body : props → Ext → completion unit * props * Ext;
  is_async : bool;
}.

(** What an object is an instance of. *)
Inductive kind : Type :=
  | KPlain                        (* an object literal *)
  | KInstance (C : ModuleClass)   (* new C(...args), C implements IModule *)
  | KModule (c : ModuleClass)     (* new Module(c), the wrapper; c is its field *)
  | KRouter.                      (* new Router(opts), koa-router *)

Record object : Type := Obj { obj_kind : kind; obj_props : props }.

(** The calls the container makes, in order. *)
Inductive event : Type :=
  | EvConstruct (l : loc)   (* a module constructor ran for the new object l *)
  | EvDefault (l : loc).    (* l.default() was invoked *)

Global Instance event_eq_dec : EqDecision event.
Proof. solve_decision. Defined.

Record World : Type := mkWorld {
  heap : gmap loc object;
  ext : Ext;
  log : list event;
  unhandled : list value;   (* rejected promises nobody awaits *)
}.

Definition with_heap (f : gmap loc object → gmap loc object) (w : World) : World :=
  mkWorld (f (heap w)) (ext w) (log w) (unhandled w).

Definition with_ext (x : Ext) (w : World) : World :=
  mkWorld (heap w) x (log w) (unhandled w).

Definition emit (ev : event) (w : World) : World :=
  mkWorld (heap w) (ext w) (log w ++ [ev]) (unhandled w).

Definition reject (e : value) (w : World) : World :=
  mkWorld (heap w) (ext w) (log w) (unhandled w ++ [e]).

(** Allocation: a reference no object of the heap has. *)
Definition alloc (o : object) : M World loc :=
  λ w, let l := fresh (dom (heap w)) in (Normal l, with_heap <[l := o]> w).

(** Running client code on the outside world. *)
Definition client {A} (body : Ext → completion A * Ext) : M World A :=
  λ w, let '(r, x) := body (ext w) in (r, with_ext x w).

(** [new C(...args)] for a module class: the object exists before the
    constructor body runs, and stays (unreachable) when the body throws. *)
Definition js_new (C : ModuleClass) (args : list value) : M World loc :=
  (let* l := alloc (Obj (KInstance C) ∅) in
   modify (emit (EvConstruct l));;;
   let* p := client (construct C args) in
   modify (with_heap <[l := Obj (KInstance C) p]>);;;
   ret l)%js.

(** *** README.md, [Module]

    [constructor(c) { this.c = c; }] *)
Definition Module_new (c : ModuleClass) : M World loc :=
  alloc (Obj (KModule c) ∅).

(** [default(...args): T { return new this.c(...args); }] *)
Definition Module_default (this : loc) (args : list value) : M World loc :=
  λ w, match obj_kind <$> heap w !! this with
       | Some (KModule c) => js_new c args w
       | _ => throw (TypeError "default is not a function") w
       end.

(** [m.default()] for an [IModule] reference [m]: dispatch on what [m] is.
    A synchronous entry point that throws completes the call with the
    throw; an asynchronous one hands back a rejected promise, which the
    caller drops. *)
Definition call_default (m : loc) : M World unit :=
  λ w, match heap w !! m with
       | Some (Obj (KInstance C) fields) =>
           let w0 := emit (EvDefault m) w in
           let '(r, fields', x) := default_body C fields (ext w0) in
           let w1 := with_ext x (with_heap <[m := Obj (KInstance C) fields']> w0) in
           match r with
           | Normal _ => (Normal tt, w1)
           | Throw e => if is_async C then (Normal tt, reject e w1) else (Throw e, w1)
           | Exit n => (Exit n, w1)
           end
       | Some (Obj (KModule c) _) =>
           (Module_default m [];;; ret tt)%js (emit (EvDefault m) w)
       | _ => throw (TypeError "m.default is not a function") w
       end.

(** ** unnamed/part_001, [Application] *)

Record Application : Type := {
  initModules : list loc;   (* modules required before any others *)
  modules : list loc;
}.

(** [constructor() {}] with the field initialisers. *)
Definition Application_new : Application :=
  {| initModules := []; modules := [] |}.

(** A method of the container runs on its own fields and the world. *)
Abbreviation State := (Application * World)%type.

Definition in_world {A} (m : M World A) : M State A :=
  λ '(app, w), let '(r, w') := m w in (r, (app, w')).

Definition on_this (f : Application → Application) : M State unit :=
  λ '(app, w), (Normal tt, (f app, w)).

(** [this.modules.push(m)] *)
Definition registered (app : Application) (m : loc) : Application :=
  {| initModules := initModules app; modules := modules app ++ [m] |}.

Definition push_modules (m : loc) : M State unit :=
  on_this (λ app, registered app m).

(** [this.initModules.push(m)] *)
Definition initialised (app : Application) (m : loc) : Application :=
  {| initModules := initModules app ++ [m]; modules := modules app |}.

Definition push_initModules (m : loc) : M State unit :=
  on_this (λ app, initialised app m).

Definition use (module : ModuleClass) (args : list value) : M State unit :=
  (let* m := in_world (js_new module args) in
   push_modules m)%js.

Definition set (module : ModuleClass) (args : list value) : M State unit :=
  (let* m := in_world (js_new module args) in
   push_initModules m;;;
   in_world (call_default m))%js.

Definition continue : M State unit := ret tt.

Definition beforeRun : M State unit := ret tt.

Definition run : M State unit :=
  (let* ms := gets (λ st : State, modules (fst st)) in
   for_of ms (λ m, in_world (call_default m)))%js.

(** [process.exit(code)] never returns. *)
Definition process_exit {A} (code : number) : M State A :=
  λ st, (Exit code, st).

(** [process.exit(exitCode ? exitCode : 0)] *)
Definition exit (exitCode : option number) : M State unit :=
  process_exit
    (match exitCode with
     | Some n => if truthy (VNumber n) then n else num0
     | None => num0
     end).

(** ** src/app/controllers/BaseController.ts *)

Record BaseController : Type := {
  path : option string;
  unsecuredRoutes : option (list string);
}.

(** koa-router's constructor, as far as [build] relies on it: the new router
    keeps the options object it is given ([this.opts = opts]). *)
Definition Router_new (opts : value) : M World loc :=
  alloc (Obj KRouter {[ "opts" := opts ]}).

(** [return new Router({ prefix: this.path || "/" });] *)
Definition build (this : BaseController) : M World loc :=
  (let* opts := alloc (Obj KPlain
                  {[ "prefix" := js_or (optional VString (path this)) (VString "/") ]}) in
   Router_new (VRef opts))%js.

(** The prefix a router of the heap was built with: [r.opts.prefix]. *)
Definition router_prefix (h : gmap loc object) (r : loc) : option value :=
  match h !! r with
  | Some (Obj KRouter p) =>
      match p !! "opts" with
      | Some (VRef o) =>
          match h !! o with
          | Some (Obj _ q) => q !! "prefix"
          | None => None
          end
      | _ => None
      end
  | _ => None
  end.

(** ** unnamed/part_000, [Utils.toPrettyObject] *)

(** The properties of whatever [obj] refers to, when it can have any:
    reading a property of [undefined] or [null] throws, a primitive has no
    own [_id]. *)
Definition toPrettyObject (_ : value) (obj : value) : M World value :=
  match obj with
  | VUndefined | VNull =>
      throw (TypeError "Cannot read properties of undefined (reading '_id')")
  | VRef l =>
      λ w, match heap w !! l with
           | Some (Obj k p) =>
               if truthy (get p "_id")
               then (Normal obj,
                     with_heap <[l := Obj k (delete "_id" (<["id" := get p "_id"]> p))]> w)
               else (Normal obj, w)
           | None => (Normal obj, w)
           end
  | _ => ret obj
  end.

(** ** src/definitions/Models/File/File.ts *)

(** A [FileDocument]: the document object and its stored paths.  Mongoose
    gives every document of a schema that declares no [_id] of its own an
    [ObjectId] there, and [timestamps: true] adds the two dates. *)
Record FileDocument : Type := {
  doc_ref : loc;
  _id : loc;         (* an ObjectId *)
  name : string;
  content : loc;     (* a Buffer *)
  createdAt : loc;   (* a Date *)
  updatedAt : loc;
  __v : number;
}.

(** The second argument of [new Schema(definition, options)], as far as
    [FileSchema] fills it. *)
Record SchemaOptions : Type := {
  timestamps : bool;
  toObject_transform : option (value → value → M World value);
  toJSON_transform : option (value → value → M World value);
}.

Definition FileSchema : SchemaOptions := {|
  timestamps := true;
  toObject_transform := Some toPrettyObject;
  toJSON_transform := Some toPrettyObject;
|}.

(** Mongoose's conversion of a document, as far as the schema relies on it:
    the stored paths are copied into a new plain object [ret], and a
    configured [transform(doc, ret)] has the last word; when it returns
    [undefined], [ret] is the result. *)
Definition stored_paths (d : FileDocument) : props :=
  {[ "_id" := VRef (_id d);
     "name" := VString (name d);
     "content" := VRef (content d);
     "createdAt" := VRef (createdAt d);
     "updatedAt" := VRef (updatedAt d);
     "__v" := VNumber (__v d) ]}.

Definition convert (transform : option (value → value → M World value))
    (d : FileDocument) : M World value :=
  (let* r := alloc (Obj KPlain (stored_paths d)) in
   match transform with
   | Some f =>
       let* out := f (VRef (doc_ref d)) (VRef r) in
       ret (match out with VUndefined => VRef r | _ => out end)
   | None => ret (VRef r)
   end)%js.

(** [doc.toObject()] and [doc.toJSON()] under a schema's options. *)
Definition toObject (s : SchemaOptions) : FileDocument → M World value :=
  convert (toObject_transform s).

Definition toJSON (s : SchemaOptions) : FileDocument → M World value :=
  convert (toJSON_transform s).

(** ** Call sequences *)

(** What a client does around a container: its methods (a subclass exposes
    the protected ones), and in between, building a controller's router or
    serialising a File document. *)
Inductive call : Type :=
  | CallUse (module : ModuleClass) (args : list value)
  | CallSet (module : ModuleClass) (args : list value)
  | CallContinue
  | CallBeforeRun
  | CallRun
  | CallExit (exitCode : option number)
  | CallBuild (controller : BaseController)
  | CallToObject (doc : FileDocument).

Definition perform (c : call) : M State unit :=
  match c with
  | CallUse C args => use C args
  | CallSet C args => set C args
  | CallContinue => continue
  | CallBeforeRun => beforeRun
  | CallRun => run
  | CallExit code => exit code
  | CallBuild c => (in_world (build c);;; ret tt)%js
  | CallToObject d => (in_world (toObject FileSchema d);;; ret tt)%js
  end.


Definition is_run (c : call) : bool :=
  match c with CallRun => true | _ => false end.

(** A client that goes on after a throw (it caught it); the process ending
    is the end of the sequence.  The states a client that stops at the
    first throw goes through are among these. *)
Fixpoint exec (cs : list call) (st : State) : State :=
  match cs with
  | [] => st
  | c :: cs' =>
      match perform c st with
      | (Exit _, st') => st'
      | (_, st') => exec cs' st'
      end
  end.

(** A new container in a world where nothing has happened yet. *)
Definition initial (x : Ext) : State :=
  (Application_new, mkWorld ∅ x [] []).



(** The entry-point invocations of a log, in order. *)
Definition invoked (tr : list event) : list loc :=
  omap (λ ev, match ev with EvDefault l => Some l | _ => None end) tr.

(** What [m] is an instance of. *)
Definition instance_of (h : gmap loc object) (m : loc) (C : ModuleClass) : Prop :=
  ∃ fields, h !! m = Some (Obj (KInstance C) fields).

Definition is_instance (h : gmap loc object) (m : loc) : Prop :=
  ∃ C, instance_of h m C.

(** Objects stay and stay what they are. *)
Definition heap_le (h h' : gmap loc object) : Prop :=
  ∀ l o, h !! l = Some o → ∃ o', h' !! l = Some o' ∧ obj_kind o' = obj_kind o.




Definition no_run (cs : list call) : bool :=
  forallb (λ c, negb (is_run c)) cs.



(** ** The registration through the wrapper, in the spec's words

    "constructs a module instance immediately via the module wrapper
    pattern, appends it to the regular-module sequence". *)
Definition use_via_Module (module : ModuleClass) (args : list value) : M State unit :=
  (let* wrapper := in_world (Module_new module) in
   let* m := in_world (Module_default wrapper args) in
   push_modules m)%js.
End Store.

Arguments ModuleClass : clear implicits.
Arguments World : clear implicits.
Arguments object : clear implicits.
Arguments call : clear implicits.

Abbreviation State Ext := (Application * World Ext)%type.

(** ** Example modules and documents

    The outside world of the examples is the console. *)

Definition Console : Type := list string.

Definition print (line : string) (out : Console) : Console := out ++ [line].

(** [class Config implements IModule { default() { console.log(...) } }] *)
Definition Config : ModuleClass Console := {|
  construct := λ _ out, (Normal ∅, out);
  default_body := λ f out, (Normal tt, <["loaded" := VBool true]> f, print "config loaded" out);
  is_async := false;
|}.

(** [class Server implements IModule { constructor(port) { this.port = port } ... }] *)
Definition Server : ModuleClass Console := {|
  construct := λ args out, (Normal {[ "port" := default VUndefined (head args) ]}, out);
  default_body := λ f out, (Normal tt, f, print "listening" out);
  is_async := false;
|}.

(** A module whose entry point throws. *)
Definition Faulty : ModuleClass Console := {|
  construct := λ _ out, (Normal ∅, out);
  default_body := λ f out, (Throw (VString "boom"), f, print "about to fail" out);
  is_async := false;
|}.

(** The same with [async default()]. *)
Definition FaultyAsync : ModuleClass Console := {|
  construct := λ _ out, (Normal ∅, out);
  default_body := λ f out, (Throw (VString "boom"), f, print "about to fail" out);
  is_async := true;
|}.

(** A module whose constructor throws. *)
Definition Unbuildable : ModuleClass Console := {|
  construct := λ _ out, (Throw (VString "bad arguments"), print "constructing" out);
  default_body := λ f out, (Normal tt, f, out);
  is_async := false;
|}.

Definition blank : State Console := initial [].

Definition port8080 : value := VNumber (num_of_Z 8080).

(** [app.set(Config); app.use(Server, 8080)] *)
Definition configured : State Console :=
  exec [CallSet Config []; CallUse Server [port8080]] blank.


(** A container whose second regular module throws when run. *)
Definition with_faulty : State Console :=
  exec [CallUse Config []; CallUse Faulty []; CallUse Server [port8080]] blank.

Definition UsersController : BaseController :=
  {| path := Some "/users"; unsecuredRoutes := None |}.

Definition EmptyPathController : BaseController :=
  {| path := Some ""; unsecuredRoutes := None |}.

Definition a_file : FileDocument := {|
  doc_ref := 10; _id := 11; name := "notes.txt"; content := 12;
  createdAt := 13; updatedAt := 14; __v := num0;
|}%positive.





(** Two init modules and a regular one, not run yet. *)
Definition two_inits : list (call Console) :=
  [CallSet Config []; CallSet Server [port8080]; CallUse Config []].

(** ** Properties *)

Section Properties.
Context {Ext : Type}.
Implicit Types (w : World Ext) (st : State Ext) (C : ModuleClass Ext).
Implicit Types (h : gmap loc (object Ext)) (m l : loc) (tr : list event).

(** *** The log *)




Lemma invoked_app tr1 tr2 : invoked (tr1 ++ tr2) = invoked tr1 ++ invoked tr2.
Proof. apply omap_app. Qed.






(** *** The heap *)

Lemma heap_le_refl h : heap_le h h.
Proof. intros l o Hl. eauto. Qed.

Lemma heap_le_trans h1 h2 h3 : heap_le h1 h2 → heap_le h2 h3 → heap_le h1 h3.
Proof.
  intros H12 H23 l o Hl.
  destruct (H12 _ _ Hl) as (o2 & Hl2 & Hk2).
  destruct (H23 _ _ Hl2) as (o3 & Hl3 & Hk3).
  exists o3. split; [done | congruence].
Qed.

Lemma heap_le_fresh h (o : object Ext) : heap_le h (<[fresh (dom h) := o]> h).
Proof.
  intros l o' Hl. exists o'. split; [| done].
  rewrite lookup_insert_ne; [done |].
  intros <-. apply (is_fresh (dom h)), elem_of_dom. eauto.
Qed.

Lemma heap_le_update h l (o o' : object Ext) :
  h !! l = Some o → obj_kind o' = obj_kind o → heap_le h (<[l := o']> h).
Proof.
  intros Hl Hk l2 o2 Hl2. destruct (decide (l = l2)) as [<-|Hne].
  - exists o'. rewrite lookup_insert_eq. split; [done | congruence].
  - exists o2. by rewrite lookup_insert_ne.
Qed.




(** *** What each step does to the world *)

Lemma js_new_eq C args w :
  js_new C args w =
  let l := fresh (dom (heap w)) in
  let made p x :=
    mkWorld (<[l := Obj (KInstance C) p]> (heap w)) x (log w ++ [EvConstruct l]) (unhandled w) in
  match construct C args (ext w) with
  | (Normal p, x) => (Normal l, made p x)
  | (Throw e, x) => (Throw e, made ∅ x)
  | (Exit n, x) => (Exit n, made ∅ x)
  end.
Proof.
  unfold js_new, bind, alloc, modify, client, ret, with_heap, with_ext, emit. simpl.
  destruct (construct C args (ext w)) as [[p|e|n] x]; simpl; try done.
  by rewrite insert_insert_eq.
Qed.

Lemma fresh_not_in_heap h : h !! fresh (dom h) = None.
Proof. apply not_elem_of_dom, is_fresh. Qed.

Lemma js_new_inv C args w r w' :
  js_new C args w = (r, w') →
  let l := fresh (dom (heap w)) in
  heap_le (heap w) (heap w') ∧
  dom (heap w') = {[l]} ∪ dom (heap w) ∧
  instance_of (heap w') l C ∧
  log w' = log w ++ [EvConstruct l] ∧
  unhandled w' = unhandled w ∧
  (∀ m, r = Normal m → m = l).
Proof.
  rewrite js_new_eq. simpl.
  destruct (construct C args (ext w)) as [[p|e|n] x]; intros [= <- <-]; simpl;
    (split; [apply heap_le_fresh |]); (split; [apply dom_insert_L |]);
    (split; [eexists; apply lookup_insert_eq |]); repeat split; congruence.
Qed.

Lemma call_default_eq m w C fields :
  heap w !! m = Some (Obj (KInstance C) fields) →
  call_default m w =
  let '(r, fields', x) := default_body C fields (ext w) in
  let w1 :=
    mkWorld (<[m := Obj (KInstance C) fields']> (heap w)) x (log w ++ [EvDefault m])
      (unhandled w) in
  match r with
  | Normal _ => (Normal tt, w1)
  | Throw e => if is_async C then (Normal tt, reject e w1) else (Throw e, w1)
  | Exit n => (Exit n, w1)
  end.
Proof.
  intros Hm. unfold call_default. rewrite Hm. simpl.
  by destruct (default_body C fields (ext w)) as [[r f'] x].
Qed.

Lemma call_default_inv m w r w' :
  is_instance (heap w) m →
  call_default m w = (r, w') →
  heap_le (heap w) (heap w') ∧
  dom (heap w') = dom (heap w) ∧
  log w' = log w ++ [EvDefault m].
Proof.
  intros (C & f & Hm). rewrite (call_default_eq _ _ _ _ Hm).
  destruct (default_body C f (ext w)) as [[r0 f'] x].
  assert (Hdom : dom (<[m := Obj (KInstance C) f']> (heap w)) = dom (heap w)).
  { rewrite dom_insert_L. apply subseteq_union_1_L, singleton_subseteq_l.
    by apply elem_of_dom_2 in Hm. }
  assert (Hle : heap_le (heap w) (<[m := Obj (KInstance C) f']> (heap w))).
  { by apply (heap_le_update _ _ _ _ Hm). }
  destruct r0 as [[]|e|n]; [| destruct (is_async C) |]; intros [= <- <-]; done.
Qed.

(** *** The methods, unfolded *)

Lemma use_eq C args app w :
  use C args (app, w) =
  match js_new C args w with
  | (Normal m, w') => (Normal tt, (registered app m, w'))
  | (Throw e, w') => (Throw e, (app, w'))
  | (Exit n, w') => (Exit n, (app, w'))
  end.
Proof.
  unfold use, bind, in_world, push_modules, on_this.
  by destruct (js_new C args w) as [[m|e|n] w'].
Qed.

Lemma set_eq C args app w :
  set C args (app, w) =
  match js_new C args w with
  | (Normal m, w') =>
      let '(r, w'') := call_default m w' in (r, (initialised app m, w''))
  | (Throw e, w') => (Throw e, (app, w'))
  | (Exit n, w') => (Exit n, (app, w'))
  end.
Proof.
  unfold set, bind, in_world, push_initModules, on_this.
  by destruct (js_new C args w) as [[m|e|n] w'].
Qed.

Lemma run_eq app w :
  run (app, w) = for_of (modules app) (λ m, in_world (call_default m)) (app, w).
Proof. done. Qed.


(** *** The invariant holds in every reachable state *)













Lemma toPrettyObject_inv (doc obj : value) w r w' :
  toPrettyObject doc obj w = (r, w') →
  heap_le (heap w) (heap w') ∧ log w' = log w.
Proof.
  unfold toPrettyObject.
  destruct obj as [| | | | |l]; try (intros [= <- <-]; split; [apply heap_le_refl | done]).
  destruct (heap w !! l) as [[k p]|] eqn:Hl;
    [| intros [= <- <-]; split; [apply heap_le_refl | done]].
  destruct (truthy (get p "_id")); intros [= <- <-];
    (split; [| done]); [| apply heap_le_refl].
  by apply (heap_le_update _ _ _ _ Hl).
Qed.

(** Building a router or serialising a document allocates and touches
    plain objects: the container and the log do not notice. *)
Lemma aside_inv (c : call Ext) app w r st' :
  match c with CallBuild _ | CallToObject _ => True | _ => False end →
  perform c (app, w) = (r, st') →
  fst st' = app ∧ heap_le (heap w) (heap (snd st')) ∧ log (snd st') = log w.
Proof.
  destruct c as [| | | | | |c|d]; try done; intros _; simpl; unfold bind, in_world.
  - unfold build, Router_new, bind, alloc. intros [= <- <-]. simpl.
    split; [done |]. split; [| done].
    eapply heap_le_trans; apply heap_le_fresh.
  - unfold toObject, convert, bind, alloc.
    change (toObject_transform FileSchema) with (Some (@toPrettyObject Ext)).
    cbv beta iota.
    destruct (toPrettyObject _ _ _) as [r1 w1] eqn:Htr.
    apply toPrettyObject_inv in Htr as [Hle Hlog]. simpl in *.
    assert (heap_le (heap w) (heap w1)) by
      (eapply heap_le_trans; [apply heap_le_fresh | exact Hle]).
    destruct r1 as [v|e|n]; intros [= <- <-]; by simpl.
Qed.




(** *** [set] *)

(** What [set] does when the constructor returns: the new instance is in
    [initModules] when its entry point is invoked, whatever comes of it. *)
Lemma set_constructed C args app w p x :
  construct C args (ext w) = (Normal p, x) →
  let m := fresh (dom (heap w)) in
  let w1 :=
    mkWorld (<[m := Obj (KInstance C) p]> (heap w)) x (log w ++ [EvConstruct m])
      (unhandled w) in
  heap w1 !! m = Some (Obj (KInstance C) p) ∧
  bind (in_world (js_new C args)) push_initModules (app, w)
    = (Normal tt, (initialised app m, w1)) ∧
  set C args (app, w) = in_world (call_default m) (initialised app m, w1).
Proof.
  intros Hc m w1. split; [apply lookup_insert_eq |].
  split.
  - unfold bind, in_world, push_initModules, on_this. by rewrite js_new_eq, Hc.
  - by rewrite set_eq, js_new_eq, Hc.
Qed.


(** C9. [set] is not atomic: when the synchronous entry point of the new
    instance throws, the instance was already appended to [initModules]
    when the entry point was invoked, and it is still there when the
    exception reaches the caller. *)
Theorem set_keeps_instance_on_throw C args st p x e fields x' :
  is_async C = false →
  construct C args (ext (snd st)) = (Normal p, x) →
  default_body C p x = (Throw e, fields, x') →
  ∃ m st1 st',
    bind (in_world (js_new C args)) push_initModules st = (Normal tt, st1) ∧
    initModules (fst st1) = initModules (fst st) ++ [m] ∧
    instance_of (heap (snd st1)) m C ∧
    in_world (call_default m) st1 = (Throw e, st') ∧
    set C args st = (Throw e, st') ∧
    initModules (fst st') = initModules (fst st) ++ [m] ∧
    modules (fst st') = modules (fst st) ∧
    instance_of (heap (snd st')) m C ∧
    log (snd st') = log (snd st) ++ [EvConstruct m; EvDefault m].
Proof.
  intros Hsync Hc Hd. destruct st as [app w]. simpl in *.
  destruct (set_constructed _ _ app _ _ _ Hc) as (Hm & Hpush & Hset).
  eexists _, _, _. split; [exact Hpush |]. rewrite Hset. simpl.
  split; [done |]. split; [by eexists |].
  unfold in_world. rewrite (call_default_eq _ _ _ _ Hm). simpl.
  rewrite Hd, Hsync. split; [done |]. split; [done |]. simpl.
  split; [done |]. split; [done |].
  split; [eexists; apply lookup_insert_eq | by rewrite <- app_assoc].
Qed.

(** *** [use] and [run] *)






(** *** Before the run phase *)







(** *** Exceptions *)

Lemma for_of_app {S A} (xs ys : list A) (body : A → M S unit) s :
  for_of (xs ++ ys) body s = bind (for_of xs body) (λ _, for_of ys body) s.
Proof.
  revert s. induction xs as [|x xs IH]; intros s; simpl.
  - done.
  - unfold bind at 1 2 3. destruct (body x s) as [[[]|e|n] s']; [| done..].
    apply IH.
Qed.

(** C6. No method of the container catches or changes an exception: a
    constructor that throws [e] makes [use] and [set] throw [e]; a
    synchronous entry point that throws [e] makes [set] throw [e]; and
    when the loop of [run] reaches a module whose synchronous entry point
    throws [e], [run] throws [e]. *)
Theorem exceptions_propagate_unchanged C args st e :
  (∀ x, construct C args (ext (snd st)) = (Throw e, x) →
     fst (use C args st) = Throw e ∧ fst (set C args st) = Throw e) ∧
  (∀ p x fields x',
     is_async C = false →
     construct C args (ext (snd st)) = (Normal p, x) →
     default_body C p x = (Throw e, fields, x') →
     fst (set C args st) = Throw e) ∧
  (∀ before m after fields fields' x' st1,
     modules (fst st) = before ++ m :: after →
     for_of before (λ m, in_world (call_default m)) st = (Normal tt, st1) →
     heap (snd st1) !! m = Some (Obj (KInstance C) fields) →
     is_async C = false →
     default_body C fields (ext (snd st1)) = (Throw e, fields', x') →
     fst (run st) = Throw e).
Proof.
  destruct st as [app w]. simpl. split; [| split].
  - intros x Hc. by rewrite use_eq, set_eq, js_new_eq, Hc.
  - intros p x fields x' Hsync Hc Hd.
    destruct (set_constructed _ _ app _ _ _ Hc) as (Hm & _ & ->).
    unfold in_world. rewrite (call_default_eq _ _ _ _ Hm). simpl.
    by rewrite Hd, Hsync.
  - intros before m after fields fields' x' [app1 w1] Hmods Hbefore Hm Hsync Hd.
    rewrite run_eq, Hmods, for_of_app. unfold bind at 1. rewrite Hbefore.
    simpl in *. unfold bind, in_world. rewrite (call_default_eq _ _ _ _ Hm).
    by rewrite Hd, Hsync.
Qed.

(** *** Frames *)

Lemma loop_frame (f : loc → M (World Ext) unit) (ms : list loc) app w r st' :
  for_of ms (λ m, in_world (f m)) (app, w) = (r, st') → fst st' = app.
Proof.
  revert w. induction ms as [|m ms IH]; intros w; simpl.
  - by intros [= <- <-].
  - unfold bind, in_world at 1. destruct (f m w) as [[[]|e|n] w1];
      [apply IH | by intros [= <- <-]..].
Qed.


(** *** The wrapper *)

Lemma Module_default_new C args w :
  let wrapper := fresh (dom (heap w)) in
  let w0 := with_heap <[wrapper := Obj (KModule C) ∅]> w in
  Module_new C w = (Normal wrapper, w0) ∧
  Module_default wrapper args w0 = js_new C args w0.
Proof.
  intros wrapper w0. split; [done |].
  unfold Module_default. subst w0. simpl. by rewrite lookup_insert_eq.
Qed.

(** C7. Registering through the container is constructing through the
    wrapper: [use(C, ...args)] and [new Module(C).default(...args)] run the
    constructor of [C] on the same arguments, complete alike (a throw is
    the same throw), leave the same outside world, and when they return,
    the instance [use] appends to [modules] and the instance the wrapper
    returns are instances of [C] with the same fields; [use] written with
    the wrapper, as the spec words it, appends the wrapper's instance.  The
    two instances are different references, one allocation apart, since
    the wrapper is an object too. *)
Theorem use_refines_Module C args app w :
  ∃ wrapper w0 r1 w1 r2 app2 w2,
    Module_new C w = (Normal wrapper, w0) ∧
    Module_default wrapper args w0 = (r1, w1) ∧
    use C args (app, w) = (r2, (app2, w2)) ∧
    use_via_Module C args (app, w)
    = (r2, (match r1 with Normal m1 => registered app m1 | _ => app end, w1)) ∧
    initModules app2 = initModules app ∧
    ext w2 = ext w1 ∧
    unhandled w2 = unhandled w1 ∧
    match r1 with
    | Normal m1 =>
        r2 = Normal tt ∧
        ∃ m2 fields,
          modules app2 = modules app ++ [m2] ∧
          construct C args (ext w) = (Normal fields, ext w2) ∧
          heap w1 !! m1 = Some (Obj (KInstance C) fields) ∧
          heap w2 !! m2 = Some (Obj (KInstance C) fields)
    | Throw e => r2 = Throw e ∧ app2 = app
    | Exit n => r2 = Exit n ∧ app2 = app
    end.
Proof.
  destruct (Module_default_new C args w) as [Hnew Hdefault].
  set (wrapper := fresh (dom (heap w))) in *.
  set (w0 := with_heap <[wrapper := Obj (KModule C) ∅]> w) in *.
  destruct (js_new C args w0) as [r1 w1] eqn:Hvia.
  destruct (use C args (app, w)) as [r2 [app2 w2]] eqn:Huse.
  exists wrapper, w0, r1, w1, r2, app2, w2.
  split; [done |]. split; [done |]. split; [done |].
  assert (use_via_Module C args (app, w)
    = match r1 with
      | Normal m1 => (Normal tt, (registered app m1, w1))
      | Throw e => (Throw e, (app, w1))
      | Exit n => (Exit n, (app, w1))
      end) as ->.
  { unfold use_via_Module, bind, in_world. rewrite Hnew, Hdefault.
    by destruct r1. }
  rewrite use_eq, js_new_eq in Huse. rewrite js_new_eq in Hvia.
  change (ext w0) with (ext w) in Hvia. simpl in Huse, Hvia.
  destruct (construct C args (ext w)) as [[p|e|n] x];
    injection Huse as <- <- <-; injection Hvia as <- <-; simpl;
    repeat (split; [done |]); [| done..].
  eexists _, p. split; [done |]. split; [done |].
  by rewrite !lookup_insert_eq.
Qed.

(** *** Serialising a File document *)

(** The transform on an object with a truthy [_id]: [id] takes its value,
    [_id] is gone, every other property stays. *)
Lemma toPrettyObject_renames (doc : value) l k (p : props) v w :
  heap w !! l = Some (Obj k p) →
  p !! "_id" = Some v →
  truthy v = true →
  ∃ w' p',
    toPrettyObject doc (VRef l) w = (Normal (VRef l), w') ∧
    heap w' !! l = Some (Obj k p') ∧
    p' !! "id" = Some v ∧
    p' !! "_id" = None ∧
    ∀ key, key ≠ "id" → key ≠ "_id" → p' !! key = p !! key.
Proof.
  intros Hl Hid Hv. unfold toPrettyObject, get. rewrite Hl, Hid. simpl. rewrite Hv.
  eexists _, _. split; [done |]. simpl. rewrite lookup_insert_eq. split; [done |].
  split; [by rewrite lookup_delete_ne, lookup_insert_eq |].
  split; [apply lookup_delete_eq |].
  intros key Hk1 Hk2. by rewrite lookup_delete_ne, lookup_insert_ne.
Qed.

(** An object without a truthy [_id] is handed back as it is. *)
Lemma toPrettyObject_leaves (doc : value) l k (p : props) w :
  heap w !! l = Some (Obj k p) →
  truthy (get p "_id") = false →
  toPrettyObject doc (VRef l) w = (Normal (VRef l), w).
Proof. intros Hl Hid. unfold toPrettyObject. by rewrite Hl, Hid. Qed.

(** C4. Serialising a File document, to a plain object or for JSON, gives
    a new plain object whose [id] is the document's [_id], which has no
    [_id], and whose other properties are the document's stored paths. *)
Theorem File_serialised_with_id (d : FileDocument) w :
  ∃ r w' (p : props),
    toObject FileSchema d w = (Normal (VRef r), w') ∧
    toJSON FileSchema d w = (Normal (VRef r), w') ∧
    (r ∉ dom (heap w)) ∧
    heap w' !! r = Some (Obj KPlain p) ∧
    p !! "id" = Some (VRef (_id d)) ∧
    p !! "_id" = None ∧
    ∀ key, key ≠ "id" → key ≠ "_id" → p !! key = stored_paths d !! key.
Proof.
  set (r := fresh (dom (heap w))).
  set (w0 := with_heap <[r := Obj KPlain (stored_paths d)]> w).
  destruct (toPrettyObject_renames (VRef (doc_ref d)) r KPlain (stored_paths d)
              (VRef (_id d)) w0) as (w' & p & Htr & Hr & Hid & Hnone & Hrest);
    [apply lookup_insert_eq | apply lookup_insert_eq | done |].
  exists r, w', p.
  assert (convert (Some toPrettyObject) d w = (Normal (VRef r), w')) as Hconv.
  { unfold convert, bind, alloc. fold r. fold w0. by rewrite Htr. }
  repeat split; try done. apply is_fresh.
Qed.

(** *** The base controller *)

Lemma build_eq (c : BaseController) w :
  let o := fresh (dom (heap w)) in
  let h1 := <[o := Obj KPlain
                {[ "prefix" := js_or (optional VString (path c)) (VString "/") ]}]>
              (heap w) in
  let r := fresh (dom h1) in
  build c w
  = (Normal r, with_heap (λ _, <[r := Obj KRouter {[ "opts" := VRef o ]}]> h1) w).
Proof. done. Qed.

Lemma router_prefix_weaken h h' r v :
  h ⊆ h' → router_prefix h r = Some v → router_prefix h' r = Some v.
Proof.
  intros Hsub. unfold router_prefix.
  destruct (h !! r) as [[[] p]|] eqn:Hr; try done.
  rewrite (lookup_weaken _ _ _ _ Hr Hsub).
  destruct (p !! "opts") as [[]|]; try done.
  destruct (h !! l) as [[k q]|] eqn:Ho; [| done].
  by rewrite (lookup_weaken _ _ _ _ Ho Hsub).
Qed.

Lemma build_inv (c : BaseController) w :
  ∃ r w',
    build c w = (Normal r, w') ∧
    (r ∉ dom (heap w)) ∧
    heap w ⊆ heap w' ∧
    (∃ p, heap w' !! r = Some (Obj KRouter p)) ∧
    router_prefix (heap w') r
    = Some (js_or (optional VString (path c)) (VString "/")).
Proof.
  eexists _, _. split; [apply build_eq |]. simpl.
  set (o := fresh (dom (heap w))).
  set (h1 := <[o := _]> (heap w)).
  set (r := fresh (dom h1)).
  assert (h1 !! r = None) as Hr by apply fresh_not_in_heap.
  assert (heap w !! o = None) as Ho by apply fresh_not_in_heap.
  assert (o ≠ r) as Hne.
  { intros Heq. rewrite <- Heq in Hr. subst h1. by rewrite lookup_insert_eq in Hr. }
  split.
  { intros [x Hx]%elem_of_dom. subst h1.
    rewrite lookup_insert_ne in Hr by done. by rewrite Hr in Hx. }
  split.
  { transitivity h1; by apply insert_subseteq. }
  split; [eexists; apply lookup_insert_eq |].
  unfold router_prefix. rewrite lookup_insert_eq, lookup_singleton_eq.
  rewrite lookup_insert_ne by done. subst h1.
  by rewrite lookup_insert_eq, lookup_singleton_eq.
Qed.

(** [this.path || "/"]: the path when it is set and not empty, the root
    path otherwise. *)
Lemma prefix_or_root (c : BaseController) :
  js_or (optional VString (path c)) (VString "/")
  = VString (match path c with
             | Some s => if decide (s = "") then "/" else s
             | None => "/"
             end).
Proof.
  unfold js_or. destruct (path c) as [s|]; [| done]. simpl.
  destruct (String.eqb_spec s "") as [->|Hne]; simpl.
  - done.
  - by rewrite decide_False.
Qed.

(** C5 (amended). Every [build()] returns a router that did not exist
    before, whose prefix is the controller's [path] when that is set and
    not the empty string, and the root path when [path] is unset or empty;
    a second call on the same controller gives another router with the
    same prefix, and the first one keeps its own. *)
Theorem build_fresh_router (c : BaseController) w :
  let prefix := VString (match path c with
                         | Some s => if decide (s = "") then "/" else s
                         | None => "/"
                         end) in
  ∃ r1 w1 r2 w2,
    build c w = (Normal r1, w1) ∧
    build c w1 = (Normal r2, w2) ∧
    (r1 ∉ dom (heap w)) ∧
    (r2 ∉ dom (heap w1)) ∧
    r1 ≠ r2 ∧
    router_prefix (heap w1) r1 = Some prefix ∧
    router_prefix (heap w2) r2 = Some prefix ∧
    router_prefix (heap w2) r1 = Some prefix.
Proof.
  intros prefix.
  destruct (build_inv c w) as (r1 & w1 & Hb1 & Hf1 & Hs1 & [p1 Hr1] & Hp1).
  destruct (build_inv c w1) as (r2 & w2 & Hb2 & Hf2 & Hs2 & _ & Hp2).
  rewrite prefix_or_root in Hp1, Hp2.
  exists r1, w1, r2, w2. repeat split; try done.
  - intros ->. apply Hf2. by apply elem_of_dom_2 in Hr1.
  - by apply (router_prefix_weaken _ _ _ _ Hs2).
Qed.

(** *** [exit] *)

End Properties.

(** ** The theorems at work *)







(** [app.set(Faulty)]: the call throws and the instance stays registered. *)
Lemma set_keeps_instance_on_throw_witness :
  ∃ m st',
    set Faulty [] configured = (Throw (VString "boom"), st') ∧
    initModules (fst st') = initModules (fst configured) ++ [m] ∧
    instance_of (heap (snd st')) m Faulty.
Proof.
  destruct (set_keeps_instance_on_throw Faulty [] configured ∅
              ["config loaded"] (VString "boom") ∅
              ["config loaded"; "about to fail"])
    as (m & st1 & st' & _ & _ & _ & _ & Hset & Hinit & _ & Hinst & _).
  - reflexivity.
  - reflexivity.
  - reflexivity.
  - by exists m, st'.
Defined.

(** A constructor that throws under [use] and [set], an entry point that
    throws under [set], and one that throws in the middle of [run]. *)
Lemma exceptions_propagate_unchanged_witness :
  fst (use Unbuildable [] blank) = Throw (VString "bad arguments") ∧
  fst (set Unbuildable [] blank) = Throw (VString "bad arguments") ∧
  fst (set Faulty [] blank) = Throw (VString "boom") ∧
  fst (run with_faulty) = Throw (VString "boom").
Proof.
  destruct (exceptions_propagate_unchanged Unbuildable [] blank
              (VString "bad arguments")) as (Hctor & _ & _).
  destruct (Hctor ["constructing"] eq_refl) as [Huse Hset].
  destruct (exceptions_propagate_unchanged Faulty [] blank (VString "boom"))
    as (_ & Hentry & _).
  destruct (exceptions_propagate_unchanged Faulty [] with_faulty (VString "boom"))
    as (_ & _ & Hrun).
  split; [exact Huse |]. split; [exact Hset |]. split.
  - by apply (Hentry ∅ [] ∅ ["about to fail"]).
  - apply (Hrun [1%positive] 2%positive [3%positive] ∅ ∅
             ["config loaded"; "about to fail"]
             (snd (for_of [1%positive] (λ m, in_world (call_default m)) with_faulty)));
      by vm_compute.
Defined.


(** The scenario of the spec: [Config] has run before [Server] is even
    constructed, and [Server] runs once, in [run()]. *)
Example spec_scenario :
  log (snd (exec [CallSet Config []; CallUse Server [port8080]; CallRun] blank))
  = [EvConstruct 1; EvDefault 1; EvConstruct 2; EvDefault 2]%positive.
Proof. by vm_compute. Qed.

(** An [async default()] that throws: [set] returns, and the rejection is
    left unhandled. *)
Example set_async_rejection :
  fst (set FaultyAsync [] blank) = Normal tt ∧
  unhandled (snd (snd (set FaultyAsync [] blank))) = [VString "boom"].
Proof. by vm_compute. Qed.

(** A controller with [path = "/users"] builds a router under that prefix. *)
Example build_users :
  ∃ r w',
    build UsersController (snd configured) = (Normal r, w') ∧
    router_prefix (heap w') r = Some (VString "/users").
Proof. eexists _, _. split; [reflexivity | by vm_compute]. Qed.

(** A File document as JSON. *)
Example a_file_as_json :
  ∃ r w' (p : props),
    toJSON FileSchema a_file (snd configured) = (Normal (VRef r), w') ∧
    heap w' !! r = Some (Obj KPlain p) ∧
    p !! "id" = Some (VRef 11%positive) ∧
    p !! "_id" = None ∧
    p !! "name" = Some (VString "notes.txt").
Proof.
  eexists _, _, _. split; [reflexivity |]. split; [by vm_compute |].
  by vm_compute.
Qed.

(** [exit(2)], [exit(-0)], [exit()] *)
Example exit_statuses :
  fst (exit (Some (num_of_Z 2)) blank) = Exit (num_of_Z 2) ∧
  fst (exit (Some num_neg0) blank) = Exit num0 ∧
  fst (exit None blank) = Exit num0.
Proof. by vm_compute. Qed.

(** C5, as stated, fails for a controller whose [path] is set to the empty
    string: the router's prefix is the root path, not the path. *)
Lemma build_empty_path_counterexample :
  ∃ r w',
    path EmptyPathController = Some "" ∧
    build EmptyPathController (snd blank) = (Normal r, w') ∧
    router_prefix (heap w') r = Some (VString "/") ∧
    VString "/" ≠ VString "".
Proof.
  eexists _, _. split; [reflexivity |]. split; [reflexivity |].
  split; [by vm_compute | done].
Qed.


(** ** Further properties of the sources *)

Section Further.
Context {Ext : Type}.
Implicit Types (w : World Ext) (st : State Ext) (C : ModuleClass Ext).
Implicit Types (h : gmap loc (object Ext)) (m l : loc) (tr : list event).

(** *** [Utils.toPrettyObject] *)

(** X1. The transform is idempotent: applied to its own result it changes
    nothing more, whatever it was given. *)
Theorem toPrettyObject_idempotent (doc doc' obj : value) w :
  bind (toPrettyObject doc obj) (toPrettyObject doc') w = toPrettyObject doc obj w.
Proof.
  unfold bind. destruct obj as [| |b|n|s|l]; try done. simpl.
  destruct (heap w !! l) as [[k p]|] eqn:Hl.
  - destruct (truthy (get p "_id")) eqn:Hid; simpl.
    + rewrite lookup_insert_eq. unfold get at 1. by rewrite lookup_delete_eq.
    + by rewrite Hl, Hid.
  - simpl. by rewrite Hl.
Qed.



(** *** [Module], the wrapper *)


(** *** [BaseController.build] *)

(** *** The container over call sequences *)

Lemma grow_perform (c : call Ext) st r st' :
  perform c st = (r, st') →
  initModules (fst st) `prefix_of` initModules (fst st') ∧
  modules (fst st) `prefix_of` modules (fst st').
Proof.
  destruct st as [app w]. intros Hp.
  assert (Hsame : fst st' = app →
    initModules app `prefix_of` initModules (fst st') ∧
    modules app `prefix_of` modules (fst st')) by (by intros ->).
  destruct c as [C args|C args| | | |code|c|d]; simpl in *.
  - rewrite use_eq in Hp. destruct (js_new C args w) as [[m|e|n] w1];
      injection Hp as <- <-; [| by apply Hsame..].
    simpl. split; [done | by apply prefix_app_r].
  - rewrite set_eq in Hp. destruct (js_new C args w) as [[m|e|n] w1];
      [| injection Hp as <- <-; by apply Hsame..].
    destruct (call_default m w1) as [r2 w2]. injection Hp as <- <-.
    simpl. split; [by apply prefix_app_r | done].
  - injection Hp as <- <-. by apply Hsame.
  - injection Hp as <- <-. by apply Hsame.
  - rewrite run_eq in Hp. apply Hsame. by eapply loop_frame.
  - injection Hp as <- <-. by apply Hsame.
  - apply Hsame. by destruct (aside_inv (CallBuild c) _ _ _ _ I Hp).
  - apply Hsame. by destruct (aside_inv (CallToObject d) _ _ _ _ I Hp).
Qed.

(** X6. Registration is append-only: whatever a client calls, in whatever
    order and with whatever outcome, the two sequences only grow at the
    end; no module is ever removed or moved. *)
Theorem registrations_only_grow (cs : list (call Ext)) st :
  initModules (fst st) `prefix_of` initModules (fst (exec cs st)) ∧
  modules (fst st) `prefix_of` modules (fst (exec cs st)).
Proof.
  revert st. induction cs as [|c cs IH]; intros st; [done |].
  simpl. destruct (perform c st) as [r st'] eqn:Hp.
  destruct (grow_perform _ _ _ _ Hp) as [Hi Hm].
  destruct (IH st') as [Hi' Hm'].
  destruct r; split; try done; by etransitivity.
Qed.





Lemma init_order_perform (c : call Ext) st r st' :
  is_run c = false →
  invoked (log (snd st)) = initModules (fst st) →
  perform c st = (r, st') →
  invoked (log (snd st')) = initModules (fst st').
Proof.
  destruct st as [app w]. simpl. intros Hc Hinv Hp.
  destruct c as [C args|C args| | | |code|c|d]; simpl in Hp; try discriminate.
  - rewrite use_eq in Hp. destruct (js_new C args w) as [r1 w1] eqn:Hnew.
    destruct (js_new_inv _ _ _ _ _ Hnew) as (_ & _ & _ & Hlog & _).
    assert (invoked (log w1) = initModules app)
      by (by rewrite Hlog, invoked_app, app_nil_r).
    by destruct r1; injection Hp as <- <-.
  - rewrite set_eq in Hp. destruct (js_new C args w) as [r1 w1] eqn:Hnew.
    destruct (js_new_inv _ _ _ _ _ Hnew) as (_ & _ & Hinst & Hlog & _ & Hr).
    assert (invoked (log w1) = initModules app) as Hinv1
      by (by rewrite Hlog, invoked_app, app_nil_r).
    destruct r1 as [m|e|n]; [| by injection Hp as <- <-..].
    rewrite (Hr m eq_refl) in *. clear Hr.
    destruct (call_default _ w1) as [r2 w2] eqn:Hcall. injection Hp as <- <-.
    destruct (call_default_inv _ _ _ _ (ex_intro _ C Hinst) Hcall) as (_ & _ & Hlog2).
    simpl. by rewrite Hlog2, invoked_app, Hinv1.
  - by injection Hp as <- <-.
  - by injection Hp as <- <-.
  - by injection Hp as <- <-.
  - destruct (aside_inv (CallBuild c) _ _ _ _ I Hp) as (Happ & _ & Hlog).
    by rewrite Hlog, Happ.
  - destruct (aside_inv (CallToObject d) _ _ _ _ I Hp) as (Happ & _ & Hlog).
    by rewrite Hlog, Happ.
Qed.

(** X9. Until [run()] is called, the entry points invoked so far are those
    of the init modules, one invocation each, in the order in which [set]
    registered them. *)
Theorem init_modules_run_in_registration_order (cs : list (call Ext)) (x : Ext) :
  no_run cs = true →
  invoked (log (snd (exec cs (initial x)))) = initModules (fst (exec cs (initial x))).
Proof.
  assert (Hgen : ∀ st, no_run cs = true →
    invoked (log (snd st)) = initModules (fst st) →
    invoked (log (snd (exec cs st))) = initModules (fst (exec cs st))).
  { induction cs as [|c cs IH]; intros st Hcs Hinv; [done |].
    apply andb_prop in Hcs as [Hc%negb_true_iff Hcs]. simpl.
    destruct (perform c st) as [r st'] eqn:Hp.
    pose proof (init_order_perform _ _ _ _ Hc Hinv Hp).
    destruct r; auto. }
  intros Hcs. by apply Hgen.
Qed.

(** *** Asynchronous entry points *)

(** X10. [set] does not wait for an asynchronous entry point and does not
    see it fail: when the body of an [async default()] throws [e], [set]
    returns, the instance is registered, and [e] is left as an unhandled
    rejection. *)
Theorem set_async_throw_returns C args st p x e fields x' :
  is_async C = true →
  construct C args (ext (snd st)) = (Normal p, x) →
  default_body C p x = (Throw e, fields, x') →
  ∃ m st',
    set C args st = (Normal tt, st') ∧
    initModules (fst st') = initModules (fst st) ++ [m] ∧
    modules (fst st') = modules (fst st) ∧
    instance_of (heap (snd st')) m C ∧
    log (snd st') = log (snd st) ++ [EvConstruct m; EvDefault m] ∧
    unhandled (snd st') = unhandled (snd st) ++ [e] ∧
    ext (snd st') = x'.
Proof.
  intros Hasync Hc Hd. destruct st as [app w]. simpl in *.
  destruct (set_constructed _ _ app _ _ _ Hc) as (Hm & _ & ->).
  unfold in_world. rewrite (call_default_eq _ _ _ _ Hm). simpl.
  rewrite Hd, Hasync. eexists _, _. split; [done |]. simpl.
  split; [done |]. split; [done |].
  split; [eexists; apply lookup_insert_eq |].
  split; [by rewrite <- app_assoc | done].
Qed.



End Further.

(** ** The further properties at work *)





Lemma init_modules_run_in_registration_order_witness :
  invoked (log (snd (exec two_inits (initial []))))
  = initModules (fst (exec two_inits (initial []))) ∧
  initModules (fst (exec two_inits (initial []))) = [1; 2]%positive.
Proof.
  split.
  - apply (init_modules_run_in_registration_order two_inits []). reflexivity.
  - by vm_compute.
Defined.

Lemma set_async_throw_returns_witness :
  ∃ m st',
    set FaultyAsync [] configured = (Normal tt, st') ∧
    initModules (fst st') = initModules (fst configured) ++ [m] ∧
    unhandled (snd st') = [VString "boom"].
Proof.
  destruct (set_async_throw_returns FaultyAsync [] configured ∅
              ["config loaded"] (VString "boom") ∅
              ["config loaded"; "about to fail"])
    as (m & st' & Hset & Hinit & _ & _ & _ & Hun & _).
  - reflexivity.
  - reflexivity.
  - reflexivity.
  - exists m, st'. split; [exact Hset |]. split; [exact Hinit | exact Hun].
Defined.



